(** * BM25 corpus index and IDF cache (package bm25, bm25.go)

    A shallow embedding of [Bm25Base]: construction of the corpus statistics
    ([NewBM25Base]), the accessors and the memoised inverse document frequency
    ([IDF]), followed by the properties of the index and of the shared scoring
    contract of the variant scorers.

    Conventions of the embedding.
    - Go's [int] is a 64-bit signed integer: values are in [Z] and every
      addition the code performs is wrapped by [GoInt.wrap].  [len] of a slice
      is [GoInt.len].
    - [float64] values are real numbers ([R]): [float64(n)] is [IZR n],
      [math.Log] is [ln], and the arithmetic is exact (rounding is not
      modelled).
    - Go maps are finite maps ([gmap]); a map used as a set is a [gset].
    - [*log.Logger] is the list of lines printed so far, [None] for [nil]. *)

From Stdlib Require Import ZArith Reals Lra Lia String Ascii List DecimalString.
From stdpp Require Import base decidable option list gmap strings sorting.

Local Open Scope Z_scope.

(** ** Go integers *)

Module GoInt.

Definition min_int : Z := - 2 ^ 63.
Definition max_int : Z := 2 ^ 63 - 1.

(** Two's complement wrap-around of 64-bit signed arithmetic. *)
Definition wrap (z : Z) : Z := (z + 2 ^ 63) mod 2 ^ 64 - 2 ^ 63.

(** [len(s)] of a slice. *)
Definition len {A : Type} (s : list A) : Z := Z.of_nat (length s).

(** The values an [int] can hold; a slice of Go has a length in range. *)
Definition in_range (z : Z) : Prop := min_int <= z <= max_int.

(** [%d] of an [int]. *)
Definition format_d (z : Z) : string := NilZero.string_of_int (Z.to_int z).

End GoInt.

Import GoInt.

(** ** Errors and results *)

(** The error values [bm25.go] creates, under the names of the error
    taxonomy; [Error] gives the message of each. *)
Inductive error : Type :=
| EmptyCorpus
| NilTokenizer
| EmptyTokenization (index : Z)
| EmptyTerm
| NotImplemented.

Definition Error (e : error) : string :=
  match e with
  | EmptyCorpus => "corpus cannot be empty"
  | NilTokenizer => "tokenizer function cannot be nil"
  | EmptyTokenization i =>
      "tokenizer function returned an empty slice for document at index "
        +:+ format_d i
  | EmptyTerm => "term cannot be empty"
  | NotImplemented => "not implemented"
  end.

(** A Go pair [(value, error)] with exactly one side set. *)
Inductive result (E A : Type) : Type :=
| Ok (a : A)
| Err (e : E).
Arguments Ok {E A} a.
Arguments Err {E A} e.

(** ** The logger *)

(** The two [Printf] calls of the package, by their arguments. *)
Inductive log_line : Type :=
| LogCorpus (size : Z) (avg : R)
| LogIDF (term : string) (idf : R).

(** ** The index *)

Record Bm25Base : Type := mkBm25Base {
  corpus : list (list string);
  corpusSize : Z;
  avgDocLen : R;
  docLengths : list Z;
  termFreqs : gmap string Z;
  idfCache : gmap string R;
  tokenizer : option (string → list string);
  logger : option (list log_line)
}.

Definition set_corpus (b : Bm25Base) (c : list (list string)) : Bm25Base :=
  mkBm25Base c (corpusSize b) (avgDocLen b) (docLengths b) (termFreqs b)
    (idfCache b) (tokenizer b) (logger b).

Definition set_corpusSize (b : Bm25Base) (n : Z) : Bm25Base :=
  mkBm25Base (corpus b) n (avgDocLen b) (docLengths b) (termFreqs b)
    (idfCache b) (tokenizer b) (logger b).

Definition set_avgDocLen (b : Bm25Base) (a : R) : Bm25Base :=
  mkBm25Base (corpus b) (corpusSize b) a (docLengths b) (termFreqs b)
    (idfCache b) (tokenizer b) (logger b).

Definition set_docLengths (b : Bm25Base) (l : list Z) : Bm25Base :=
  mkBm25Base (corpus b) (corpusSize b) (avgDocLen b) l (termFreqs b)
    (idfCache b) (tokenizer b) (logger b).

Definition set_termFreqs (b : Bm25Base) (m : gmap string Z) : Bm25Base :=
  mkBm25Base (corpus b) (corpusSize b) (avgDocLen b) (docLengths b) m
    (idfCache b) (tokenizer b) (logger b).

Definition set_idfCache (b : Bm25Base) (m : gmap string R) : Bm25Base :=
  mkBm25Base (corpus b) (corpusSize b) (avgDocLen b) (docLengths b)
    (termFreqs b) m (tokenizer b) (logger b).

(** [b.logger.Printf(...)] behind its [b.logger != nil] guard. *)
Definition Printf (b : Bm25Base) (line : log_line) : Bm25Base :=
  match logger b with
  | None => b
  | Some out =>
      mkBm25Base (corpus b) (corpusSize b) (avgDocLen b) (docLengths b)
        (termFreqs b) (idfCache b) (tokenizer b) (Some (out ++ [line]))
  end.

(** ** NewBM25Base *)

(** The inner loop of [NewBM25Base]: every token not yet in [seenTokens]
    increments its entry of [termFreqs] (a missing entry reads as 0) and is
    added to [seenTokens]. *)
Fixpoint countTokens (tokens : list string) (seenTokens : gset string)
    (termFreqs : gmap string Z) : gmap string Z :=
  match tokens with
  | [] => termFreqs
  | token :: rest =>
      if decide (token ∈ seenTokens) then countTokens rest seenTokens termFreqs
      else
        countTokens rest ({[token]} ∪ seenTokens)
          (<[token := wrap (default 0 (termFreqs !! token) + 1)]> termFreqs)
  end.

(** The outer loop of [NewBM25Base] from document [i] on; the state is the
    index under construction and the local [totalDocLen]. *)
Fixpoint indexDocs (tokenize : string → list string) (i : nat)
    (docs : list string) (base : Bm25Base) (totalDocLen : Z)
    : result error (Bm25Base * Z) :=
  match docs with
  | [] => Ok (base, totalDocLen)
  | doc :: rest =>
      let tokens := tokenize doc in
      if decide (len tokens = 0) then Err (EmptyTokenization (Z.of_nat i))
      else
        let base := set_corpus base (<[i := tokens]> (corpus base)) in
        let base := set_docLengths base (docLengths base ++ [len tokens]) in
        let totalDocLen := wrap (totalDocLen + len tokens) in
        let base :=
          set_termFreqs base (countTokens tokens ∅ (termFreqs base)) in
        indexDocs tokenize (S i) rest base totalDocLen
  end.

Definition NewBM25Base (docs : list string)
    (tokenize : option (string → list string))
    (log : option (list log_line)) : result error Bm25Base :=
  if decide (len docs = 0) then Err EmptyCorpus
  else
    match tokenize with
    | None => Err NilTokenizer
    | Some tk =>
        let base :=
          mkBm25Base (replicate (length docs) []) 0 0%R [] ∅ ∅ (Some tk) log in
        match indexDocs tk 0 docs base 0 with
        | Err e => Err e
        | Ok (base, totalDocLen) =>
            let base := set_corpusSize base (len docs) in
            let base :=
              set_avgDocLen base
                (IZR totalDocLen / IZR (corpusSize base))%R in
            Ok (Printf base (LogCorpus (corpusSize base) (avgDocLen base)))
        end
    end.

(** ** Accessors *)

Definition CorpusSize (b : Bm25Base) : Z := corpusSize b.
Definition AvgDocLen (b : Bm25Base) : R := avgDocLen b.
Definition DocLengths (b : Bm25Base) : list Z := docLengths b.

(** ** IDF *)

(** [IDF] returns its result and the index after the call. *)
Definition IDF (b : Bm25Base) (term : string) : result error R * Bm25Base :=
  if decide (term = "") then (Err EmptyTerm, b)
  else
    match idfCache b !! term with
    | Some idf => (Ok idf, b)
    | None =>
        match termFreqs b !! term with
        | None => (Ok 0%R, set_idfCache b (<[term := 0%R]> (idfCache b)))
        | Some termFreq =>
            if decide (termFreq = 0) then
              (Ok 0%R, set_idfCache b (<[term := 0%R]> (idfCache b)))
            else if decide (termFreq = corpusSize b) then
              let idf := ln (0.5 / (IZR termFreq + 0.5))%R in
              (Ok idf, set_idfCache b (<[term := idf]> (idfCache b)))
            else
              let idf :=
                ln ((IZR (corpusSize b) - IZR termFreq + 0.5)
                      / (IZR termFreq + 0.5) + 1.0)%R in
              let b := set_idfCache b (<[term := idf]> (idfCache b)) in
              (Ok idf, Printf b (LogIDF term idf))
        end
    end.

(** ** The scoring methods of the base *)

(** On [Bm25Base] itself the three scoring methods are placeholders. *)
Definition GetScores (b : Bm25Base) (query : list string)
    : result error (list R) := Err NotImplemented.

Definition GetBatchScores (b : Bm25Base) (query : list string)
    (docIDs : list Z) : result error (list R) := Err NotImplemented.

Definition GetTopN (b : Bm25Base) (query : list string) (n : Z)
    : result error (list string) := Err NotImplemented.

(** ** The tokenizer of the test suite *)

(** [strings.Split(s, " ")]: the fields between single spaces, empty fields
    included. *)
Fixpoint Split (s : string) : list string :=
  match s with
  | EmptyString => [EmptyString]
  | String c rest =>
      if Ascii.eqb c " "%char then EmptyString :: Split rest
      else
        match Split rest with
        | [] => [String c EmptyString]
        | field :: fields => String c field :: fields
        end
  end.

Definition test_corpus : list string := ["hello world"; "this is a test"].

(** ** Specification-side notions *)

(** The documents of a tokenized corpus that contain [term]. *)
Definition containing (term : string) (docs : list (list string))
    : list (list string) :=
  filter (λ doc, term ∈ doc) docs.

(** Document frequency: how many documents contain [term] at least once. *)
Definition documentFrequency (term : string) (docs : list (list string)) : Z :=
  len (containing term docs).

(** What the frequency table holds for [term]: no entry when no document
    contains it, its document frequency otherwise. *)
Definition frequencyEntry (term : string) (docs : list (list string))
    : option Z :=
  if decide (documentFrequency term docs = 0) then None
  else Some (documentFrequency term docs).

(** Total number of tokens of a tokenized corpus. *)
Definition totalTokens (docs : list (list string)) : Z :=
  foldr (λ doc acc, len doc + acc) 0 docs.

(** Sum of a list of integers. *)
Definition sumZ (l : list Z) : Z := foldr Z.add 0 l.

(** The value [IDF] computes for [term] when it is not cached. *)
Definition idf_value (b : Bm25Base) (term : string) : R :=
  match termFreqs b !! term with
  | None => 0%R
  | Some df =>
      if decide (df = 0) then 0%R
      else if decide (df = corpusSize b) then ln (0.5 / (IZR df + 0.5))%R
      else
        ln ((IZR (corpusSize b) - IZR df + 0.5) / (IZR df + 0.5) + 1.0)%R
  end.

(** The indexes a program can hold: built by [NewBM25Base] from a slice
    (whose length is an [int]) and then changed by calls of [IDF] only. *)
Inductive reachable : Bm25Base → Prop :=
| reachable_new docs tk log b :
    in_range (len docs) →
    NewBM25Base docs (Some tk) log = Ok b →
    reachable b
| reachable_IDF b term :
    reachable b →
    reachable (IDF b term).2.

(** The invariant of reachable indexes. *)
Record index_ok (b : Bm25Base) : Prop := mk_index_ok {
  ok_size : corpusSize b = len (corpus b);
  ok_nonempty : 0 < corpusSize b;
  ok_range : in_range (corpusSize b);
  ok_lengths : docLengths b = len <$> corpus b;
  ok_tokens : Forall (λ doc, doc ≠ []) (corpus b);
  ok_freqs : ∀ term, termFreqs b !! term = frequencyEntry term (corpus b);
  ok_cache : ∀ term idf, idfCache b !! term = Some idf → idf = idf_value b term
}.

(** ** The variant scorers *)

#[global] Instance R_eq_dec : EqDecision R := Req_dec_T.
#[global] Instance Rlt_decision (x y : R) : Decision (x < y)%R := Rlt_dec x y.

Module Variant.

(** Modelled from the spec: the failures of the variant scorers (Okapi,
    BM25L, BM25+), whose source files are not among the sources studied;
    only their test suite, the [BM25] interface and the placeholders of
    [Bm25Base] are.  The query-time conditions are those of section 7;
    [Index e] is a failure of the corpus index. *)
Inductive failure : Type :=
| Index (e : error)
| EmptyQuery
| EmptyDocumentIDs
| InvalidDocumentID (value : Z)
| InvalidN.

(** Modelled from the spec: a scorer of the missing variant files.  It owns
    a corpus index and, by section 3, retains the raw text of every
    document next to its tokenized form. *)
Record Scorer : Type := mkScorer {
  base : Bm25Base;
  documents : list string
}.

(** Modelled from the spec: construction of a scorer of the missing variant
    files (section 6) builds the corpus index from the corpus and the
    tokenizer and keeps the documents; the validation of the tuning
    parameters belongs to each variant and is not part of the shared
    contract. *)
Definition NewScorer (docs : list string)
    (tokenize : option (string → list string))
    (log : option (list log_line)) : result failure Scorer :=
  match NewBM25Base docs tokenize log with
  | Err e => Err (Index e)
  | Ok b => Ok (mkScorer b docs)
  end.

(** Modelled from the spec: the scorers a caller can hold, for the missing
    variant files: constructed, then queried, which only grows the IDF
    cache of the index (section 3, lifecycle). *)
Inductive constructed : Scorer → Prop :=
| constructed_new docs tk log s :
    in_range (len docs) →
    NewScorer docs (Some tk) log = Ok s →
    constructed s
| constructed_query s term :
    constructed s →
    constructed (mkScorer (IDF (base s) term).2 (documents s)).

(** Modelled from the spec: raw frequency [f(t,d)] of section 4.4, for the
    missing variant files. *)
Definition frequency (term : string) (doc : list string) : Z :=
  len (filter (λ token, token = term) doc).

(** Modelled from the spec: the BM25L row of the table of section 4.4 (file
    bm25l.go is missing), with [idf(t)] the value of section 4.2. *)
Definition bm25l (k1 b : R) (index : Bm25Base) (term : string)
    (doc : list string) : R :=
  let c :=
    (IZR (frequency term doc)
       / (1 - b + b * IZR (len doc) / avgDocLen index))%R in
  (idf_value index term * ((k1 + 1) * c) / (k1 + c))%R.

Section Contract.

(** The per-term, per-document contribution formula, the only thing in
    which the variants differ (section 4.3). *)
Variable contribution : Bm25Base → string → list string → R.

(** Modelled from the spec: contribution of one query term to one
    document in the missing variant files; a term absent from the
    document contributes 0 (section 4.3). *)
Definition termScore (s : Scorer) (term : string) (doc : list string) : R :=
  if decide (term ∈ doc) then contribution (base s) term doc else 0%R.

(** Modelled from the spec: score of one document in the missing variant
    files, accumulated over the query terms in order (section 4.3). *)
Definition docScore (s : Scorer) (query : list string) (doc : list string)
    : R :=
  fold_left (λ score term, (score + termScore s term doc)%R) query 0%R.

(** Modelled from the spec: [GetScores] of the missing variant files
    (section 4.3): [EmptyQuery] on a query without tokens, else one score
    per document in document-ID order. *)
Definition GetScores (s : Scorer) (query : list string)
    : result failure (list R) :=
  if decide (len query = 0) then Err EmptyQuery
  else Ok (docScore s query <$> corpus (base s)).

(** Modelled from the spec: the loop of [GetBatchScores] of the missing
    variant files over the supplied IDs, in their order; an ID that is
    negative or not below [corpusSize] stops it (section 4.3). *)
Fixpoint batchScores (s : Scorer) (query : list string) (docIDs : list Z)
    : result failure (list R) :=
  match docIDs with
  | [] => Ok []
  | id :: rest =>
      if decide (id < 0 ∨ corpusSize (base s) <= id) then
        Err (InvalidDocumentID id)
      else
        match batchScores s query rest with
        | Err e => Err e
        | Ok scores =>
            let doc := default [] (corpus (base s) !! Z.to_nat id) in
            Ok (docScore s query doc :: scores)
        end
  end.

(** Modelled from the spec: [GetBatchScores] of the missing variant files
    (section 4.3). *)
Definition GetBatchScores (s : Scorer) (query : list string)
    (docIDs : list Z) : result failure (list R) :=
  if decide (len query = 0) then Err EmptyQuery
  else if decide (len docIDs = 0) then Err EmptyDocumentIDs
  else batchScores s query docIDs.

(** Modelled from the spec: the score of document [i] in a score vector,
    for the ranking helper of the missing variant files. *)
Definition scoreOf (scores : list R) (i : nat) : R :=
  default 0%R (scores !! i).

(** Modelled from the spec: the ranking order of the missing ranking
    helper (sections 4.3 and 9): higher score first, equal scores by
    ascending document ID. *)
Definition ranksBefore (scores : list R) (i j : nat) : Prop :=
  (scoreOf scores j < scoreOf scores i)%R
  ∨ (scoreOf scores i = scoreOf scores j ∧ (i ≤ j)%nat).

#[global] Instance ranksBefore_dec scores i j :
  Decision (ranksBefore scores i j).
Proof. unfold ranksBefore. apply _. Defined.

(** Modelled from the spec: the document IDs of a score vector in ranking
    order, for the missing ranking helper. *)
Definition ranking (scores : list R) : list nat :=
  merge_sort (ranksBefore scores) (seq 0 (length scores)).

(** Modelled from the spec: [GetTopN] of the missing variant files
    (section 4.3): the full scores, the [n] best document IDs, and the
    raw text of each. *)
Definition GetTopN (s : Scorer) (query : list string) (n : Z)
    : result failure (list string) :=
  if decide (len query = 0) then Err EmptyQuery
  else if decide (n <= 0) then Err InvalidN
  else
    match GetScores s query with
    | Err e => Err e
    | Ok scores =>
        Ok ((λ i, default EmptyString (documents s !! i))
              <$> take (Z.to_nat n) (ranking scores))
    end.

End Contract.

End Variant.

(** ** Sample indexes *)

(** The zero value of [Bm25Base]. *)
Definition zero_base : Bm25Base := mkBm25Base [] 0 0%R [] ∅ ∅ None None.

(** The index [NewBM25Base] returns, the zero value when it fails. *)
Definition built (docs : list string)
    (tokenize : option (string → list string))
    (log : option (list log_line)) : Bm25Base :=
  match NewBM25Base docs tokenize log with
  | Ok b => b
  | Err _ => zero_base
  end.

(** The index of the test suite's corpus. *)
Definition test_base : Bm25Base := built test_corpus (Some Split) None.

(** A corpus in which "the" occurs in every document, twice in the last. *)
Definition the_corpus : list string := ["the cat"; "the dog"; "the the end"].

Definition the_base : Bm25Base := built the_corpus (Some Split) (Some []).

(** A tokenizer that drops the empty fields, so that a document made of
    spaces only has no token. *)
Definition Fields (s : string) : list string :=
  filter (λ field, field ≠ EmptyString) (Split s).

(** A corpus whose document 2 is blank and whose document 3 is empty. *)
Definition blank_corpus : list string := ["hello world"; "a b"; "  "; ""].

(** Sum of a list of reals, from the right. *)
Definition sumR (l : list R) : R := foldr Rplus 0%R l.

(** The strict ranking order: higher score first, equal scores by strictly
    ascending document ID. *)
Definition ranksStrictlyBefore (scores : list R) (i j : nat) : Prop :=
  (Variant.scoreOf scores j < Variant.scoreOf scores i)%R
  ∨ (Variant.scoreOf scores i = Variant.scoreOf scores j ∧ (i < j)%nat).

(** The index of the test suite's corpus with the documents, as a scorer. *)
Definition test_scorer : Variant.Scorer :=
  Variant.mkScorer test_base test_corpus.

(** * Examples *)

Example Split_hello : Split "hello world" = ["hello"; "world"].
Proof. reflexivity. Qed.

Example Split_double_space : Split "a  b" = ["a"; ""; "b"].
Proof. reflexivity. Qed.

Example New_empty : NewBM25Base [] (Some Split) None = Err EmptyCorpus.
Proof. reflexivity. Qed.

Example New_nil_tokenizer :
  NewBM25Base test_corpus None None = Err NilTokenizer.
Proof. reflexivity. Qed.

Example New_test_corpus :
  match NewBM25Base test_corpus (Some Split) None with
  | Ok b =>
      corpusSize b = 2 ∧ docLengths b = [2; 4]
      ∧ termFreqs b !! "hello" = Some 1 ∧ termFreqs b !! "zzz" = None
      ∧ corpus b = [["hello"; "world"]; ["this"; "is"; "a"; "test"]]
  | Err _ => False
  end.
Proof. vm_compute. repeat split; reflexivity. Qed.

Example Error_index :
  Error (EmptyTokenization 12)
  = "tokenizer function returned an empty slice for document at index 12".
Proof. reflexivity. Qed.

(** * Properties *)

(** ** Go integers *)

Lemma wrap_in_range (z : Z) : in_range z → wrap z = z.
Proof.
  unfold in_range, min_int, max_int, wrap. intros Hz.
  rewrite Z.mod_small; lia.
Qed.

Lemma len_nonneg {A : Type} (s : list A) : 0 <= len s.
Proof. unfold len. lia. Qed.

Lemma len_app {A : Type} (s t : list A) : len (s ++ t) = len s + len t.
Proof. unfold len. rewrite length_app. lia. Qed.

Lemma len_zero_nil {A : Type} (s : list A) : len s = 0 ↔ s = [].
Proof. unfold len. destruct s; simpl; split; intros; (done || lia). Qed.

(** ** Document frequency *)

Lemma containing_snoc term docs doc :
  containing term (docs ++ [doc])
  = containing term docs ++ (if decide (term ∈ doc) then [doc] else []).
Proof.
  unfold containing. rewrite filter_app. reflexivity.
Qed.

Lemma documentFrequency_snoc term docs doc :
  documentFrequency term (docs ++ [doc])
  = documentFrequency term docs + (if decide (term ∈ doc) then 1 else 0).
Proof.
  unfold documentFrequency. rewrite containing_snoc, len_app.
  case_decide; reflexivity.
Qed.

Lemma documentFrequency_bounds term docs :
  0 <= documentFrequency term docs <= len docs.
Proof.
  unfold documentFrequency, containing, len. split; [lia |].
  apply inj_le, length_filter.
Qed.

Lemma documentFrequency_zero term docs :
  documentFrequency term docs = 0 ↔ ∀ doc, doc ∈ docs → term ∉ doc.
Proof.
  unfold documentFrequency. rewrite len_zero_nil. unfold containing. split.
  - intros Hnil doc Hin Hterm.
    assert (doc ∈ filter (λ doc, term ∈ doc) docs) as Hdoc
      by (apply list_elem_of_filter; done).
    rewrite Hnil in Hdoc. by apply not_elem_of_nil in Hdoc.
  - intros Hnone. induction docs as [| doc docs IH]; [done |].
    rewrite filter_cons. case_decide as Hterm.
    + exfalso. apply (Hnone doc); [left | done].
    + apply IH. intros doc' Hin. apply Hnone. by right.
Qed.

Lemma frequencyEntry_Some term docs df :
  frequencyEntry term docs = Some df
  ↔ df = documentFrequency term docs ∧ 1 <= df.
Proof.
  unfold frequencyEntry. pose proof (documentFrequency_bounds term docs) as Hb.
  case_decide as Hz; split.
  - discriminate.
  - intros [-> Hge]. lia.
  - intros [= <-]. lia.
  - intros [-> _]. reflexivity.
Qed.

Lemma frequencyEntry_None term docs :
  frequencyEntry term docs = None ↔ ∀ doc, doc ∈ docs → term ∉ doc.
Proof.
  rewrite <- documentFrequency_zero. unfold frequencyEntry.
  case_decide as Hz; split; done.
Qed.

(** ** The inner loop *)

Lemma countTokens_lookup tokens seen freqs term :
  countTokens tokens seen freqs !! term
  = if decide (term ∈ tokens ∧ term ∉ seen)
    then Some (wrap (default 0 (freqs !! term) + 1))
    else freqs !! term.
Proof.
  revert seen freqs.
  induction tokens as [| token rest IH]; intros seen freqs;
    cbn [countTokens].
  - rewrite decide_False; [done |]. intros [H _].
    by apply not_elem_of_nil in H.
  - destruct (decide (token ∈ seen)) as [Hseen | Hseen]; rewrite IH.
    + destruct (decide (term ∈ rest ∧ term ∉ seen)) as [H | H].
      * rewrite decide_True by set_solver. reflexivity.
      * rewrite decide_False by set_solver. reflexivity.
    + destruct (decide (term = token)) as [-> | Hne].
      * rewrite lookup_insert_eq.
        rewrite decide_False by set_solver.
        rewrite decide_True by set_solver. reflexivity.
      * rewrite lookup_insert_ne by done.
        destruct (decide (term ∈ rest ∧ term ∉ seen)) as [H | H].
        -- rewrite !decide_True by set_solver. reflexivity.
        -- rewrite !decide_False by set_solver. reflexivity.
Qed.

Lemma countTokens_entry tokens docs freqs term :
  len docs < max_int →
  freqs !! term = frequencyEntry term docs →
  countTokens tokens ∅ freqs !! term = frequencyEntry term (docs ++ [tokens]).
Proof.
  intros Hlen Hfreq. rewrite countTokens_lookup, Hfreq.
  pose proof (documentFrequency_bounds term docs) as Hb.
  unfold frequencyEntry. rewrite documentFrequency_snoc.
  destruct (decide (term ∈ tokens)) as [Hin | Hout].
  - rewrite decide_True by set_solver.
    rewrite (decide_False (P := _ + 1 = 0)) by lia.
    f_equal. case_decide as Hz; simpl.
    + rewrite Hz. apply wrap_in_range. unfold in_range, min_int, max_int. lia.
    + apply wrap_in_range. unfold in_range, min_int, max_int in *. lia.
  - rewrite decide_False by set_solver.
    rewrite Z.add_0_r. reflexivity.
Qed.

(** ** The outer loop *)

Lemma totalTokens_app docs docs' :
  totalTokens (docs ++ docs') = totalTokens docs + totalTokens docs'.
Proof.
  unfold totalTokens. induction docs as [| doc docs IH]; simpl; [done |].
  fold (totalTokens docs) in *. rewrite IH. unfold totalTokens. lia.
Qed.

Lemma totalTokens_nonneg docs : 0 <= totalTokens docs.
Proof.
  unfold totalTokens. induction docs as [| doc docs IH]; simpl; [done |].
  pose proof (len_nonneg doc). lia.
Qed.

Lemma totalTokens_sum docs : totalTokens docs = sumZ (len <$> docs).
Proof.
  unfold totalTokens, sumZ. induction docs as [| doc docs IH]; simpl; [done |].
  by rewrite IH.
Qed.

Lemma totalTokens_ge_len docs :
  Forall (λ doc, doc ≠ []) docs → len docs <= totalTokens docs.
Proof.
  induction 1 as [| doc docs Hdoc _ IH]; [done |].
  change (totalTokens (doc :: docs)) with (len doc + totalTokens docs).
  assert (1 <= len doc) by (destruct doc; [done | unfold len; simpl; lia]).
  unfold len in *. simpl length. lia.
Qed.

(** The part of the index the loop leaves alone. *)
Definition same_frame (b b' : Bm25Base) : Prop :=
  corpusSize b' = corpusSize b ∧ avgDocLen b' = avgDocLen b
  ∧ idfCache b' = idfCache b ∧ tokenizer b' = tokenizer b
  ∧ logger b' = logger b.

Lemma indexDocs_ok tk rest :
  ∀ done base total base' total',
    corpus base = done ++ replicate (length rest) [] →
    docLengths base = len <$> done →
    (∀ term, termFreqs base !! term = frequencyEntry term done) →
    len done + len rest <= max_int →
    indexDocs tk (length done) rest base total = Ok (base', total') →
    corpus base' = done ++ (tk <$> rest)
    ∧ docLengths base' = len <$> (done ++ (tk <$> rest))
    ∧ (∀ term,
         termFreqs base' !! term = frequencyEntry term (done ++ (tk <$> rest)))
    ∧ Forall (λ doc, doc ≠ []) (tk <$> rest)
    ∧ same_frame base base'
    ∧ (0 <= total → total + totalTokens (tk <$> rest) <= max_int →
       total' = total + totalTokens (tk <$> rest)).
Proof.
  induction rest as [| doc rest IH];
    intros done base total base' total' Hcorpus Hlens Hfreqs Hrange Hrun.
  - simpl in Hrun. injection Hrun as <- <-. simpl in *.
    rewrite app_nil_r in *. unfold same_frame.
    repeat split; try done. intros. lia.
  - cbn [indexDocs] in Hrun. case_decide as Hempty; [discriminate |].
    assert (len (doc :: rest) = 1 + len rest) as Hcons
      by (unfold len; simpl length; lia).
    rewrite Hcons in Hrange.
    replace (S (length done)) with (length (done ++ [tk doc])) in Hrun
      by (rewrite length_app; simpl; lia).
    apply IH in Hrun; clear IH.
    + destruct Hrun as (Hc & Hl & Hf & Hne & Hframe & Htotal).
      rewrite <- app_assoc in Hc, Hl, Hf. simpl in Hc, Hl, Hf.
      unfold same_frame in *. simpl in Hframe.
      destruct Hframe as (? & ? & ? & ? & ?).
      rewrite fmap_cons. split_and!; try done.
      * constructor; [| done]. by rewrite <- len_zero_nil.
      * intros Hpos Hmax.
        change (totalTokens (tk doc :: (tk <$> rest)))
          with (len (tk doc) + totalTokens (tk <$> rest)) in *.
        pose proof (len_nonneg (tk doc)).
        pose proof (totalTokens_nonneg (tk <$> rest)).
        assert (wrap (total + len (tk doc)) = total + len (tk doc)) as Hw.
        { apply wrap_in_range. unfold in_range, min_int, max_int in *. lia. }
        rewrite Hw in Htotal. rewrite Htotal; lia.
    + simpl. rewrite Hcorpus. simpl.
      rewrite insert_app_r_alt by lia. rewrite Nat.sub_diag. simpl.
      by rewrite <- app_assoc.
    + simpl. rewrite Hlens. by rewrite fmap_app.
    + intros term. simpl. apply countTokens_entry; [| done].
      pose proof (len_nonneg rest). lia.
    + rewrite len_app. change (len [tk doc]) with 1. lia.
Qed.

Lemma indexDocs_total tk rest :
  ∀ i base total,
    Forall (λ doc, tk doc ≠ []) rest →
    ∃ r, indexDocs tk i rest base total = Ok r.
Proof.
  induction rest as [| doc rest IH]; intros i base total Hall.
  - eexists. reflexivity.
  - inversion_clear Hall as [| ? ? Hdoc Hrest]. cbn [indexDocs].
    rewrite decide_False by (by rewrite len_zero_nil).
    by apply IH.
Qed.

Lemma indexDocs_first_empty tk rest :
  ∀ i base total k doc,
    rest !! k = Some doc →
    tk doc = [] →
    (∀ j doc', (j < k)%nat → rest !! j = Some doc' → tk doc' ≠ []) →
    indexDocs tk i rest base total
    = Err (EmptyTokenization (Z.of_nat (i + k))).
Proof.
  induction rest as [| doc0 rest IH]; intros i base total k doc Hk Hdoc Hbefore.
  - done.
  - cbn [indexDocs]. destruct k as [| k].
    + injection Hk as ->. rewrite decide_True by (by rewrite Hdoc).
      by rewrite Nat.add_0_r.
    + rewrite decide_False.
      * rewrite (IH (S i) _ _ k doc); [| done | done |].
        -- do 2 f_equal. lia.
        -- intros j doc' Hj Hl. apply (Hbefore (S j)); [lia | done].
      * rewrite len_zero_nil. apply (Hbefore 0%nat); [lia | done].
Qed.

(** ** Printf and the setters *)

Lemma Printf_frame b line :
  corpus (Printf b line) = corpus b
  ∧ corpusSize (Printf b line) = corpusSize b
  ∧ avgDocLen (Printf b line) = avgDocLen b
  ∧ docLengths (Printf b line) = docLengths b
  ∧ termFreqs (Printf b line) = termFreqs b
  ∧ idfCache (Printf b line) = idfCache b
  ∧ tokenizer (Printf b line) = tokenizer b.
Proof. unfold Printf. destruct (logger b); done. Qed.

(** ** Construction *)

Lemma NewBM25Base_inv docs tk log b :
  in_range (len docs) →
  NewBM25Base docs (Some tk) log = Ok b →
  docs ≠ []
  ∧ corpus b = tk <$> docs
  ∧ corpusSize b = len docs
  ∧ docLengths b = len <$> (tk <$> docs)
  ∧ (∀ term, termFreqs b !! term = frequencyEntry term (tk <$> docs))
  ∧ Forall (λ doc, doc ≠ []) (tk <$> docs)
  ∧ idfCache b = ∅
  ∧ tokenizer b = Some tk
  ∧ (in_range (totalTokens (tk <$> docs)) →
     avgDocLen b = (IZR (totalTokens (tk <$> docs)) / IZR (len docs))%R).
Proof.
  intros Hrange Hnew. unfold NewBM25Base in Hnew.
  case_decide as Hlen; [discriminate |].
  destruct (indexDocs tk 0 docs _ 0) as [[base total] | e] eqn:Hrun;
    [| discriminate].
  injection Hnew as <-.
  apply (indexDocs_ok tk docs [] _ 0 base total) in Hrun; simpl; try done.
  - destruct Hrun as (Hc & Hl & Hf & Hne & Hframe & Htotal). simpl in *.
    destruct Hframe as (_ & _ & Hcache & Htk & _). simpl in *.
    destruct (Printf_frame
      (set_avgDocLen (set_corpusSize base (len docs))
         (IZR total / IZR (len docs))%R)
      (LogCorpus (len docs) (IZR total / IZR (len docs))%R))
      as (-> & -> & -> & -> & -> & -> & ->).
    simpl. repeat split; try done.
    + by rewrite len_zero_nil in Hlen.
    + intros [_ Hmax]. rewrite Htotal; [done | lia | lia].
  - unfold in_range in Hrange. unfold len at 1. simpl. lia.
Qed.

(** ** IDF: frame, result and cache *)

Lemma IDF_frame b term :
  corpus (IDF b term).2 = corpus b
  ∧ corpusSize (IDF b term).2 = corpusSize b
  ∧ avgDocLen (IDF b term).2 = avgDocLen b
  ∧ docLengths (IDF b term).2 = docLengths b
  ∧ termFreqs (IDF b term).2 = termFreqs b
  ∧ tokenizer (IDF b term).2 = tokenizer b.
Proof.
  unfold IDF. case_decide; [done |].
  destruct (idfCache b !! term); [done |].
  destruct (termFreqs b !! term) as [df |]; [| done].
  case_decide; [done |]. case_decide; [done |].
  cbv zeta. cbn [snd].
  match goal with |- context [Printf ?b' ?l] =>
    destruct (Printf_frame b' l) as (-> & -> & -> & -> & -> & _ & ->) end.
  done.
Qed.

Lemma IDF_result b term :
  term ≠ EmptyString →
  (IDF b term).1 = Ok (default (idf_value b term) (idfCache b !! term)).
Proof.
  intros Hterm. unfold IDF, idf_value. rewrite decide_False by done.
  destruct (idfCache b !! term); [done |].
  destruct (termFreqs b !! term) as [df |]; [| done].
  case_decide; [done |]. case_decide; done.
Qed.

Lemma IDF_empty b : IDF b EmptyString = (Err EmptyTerm, b).
Proof. unfold IDF. by rewrite decide_True. Qed.

Lemma IDF_cache b term :
  idfCache (IDF b term).2
  = if decide (term = EmptyString) then idfCache b
    else
      match idfCache b !! term with
      | Some _ => idfCache b
      | None => <[term := idf_value b term]> (idfCache b)
      end.
Proof.
  unfold IDF, idf_value. case_decide; [done |].
  destruct (idfCache b !! term); [done |].
  destruct (termFreqs b !! term) as [df |]; [| done].
  case_decide; [done |]. case_decide; [done |].
  cbv zeta. cbn [snd].
  match goal with |- context [Printf ?b' ?l] =>
    destruct (Printf_frame b' l) as (_ & _ & _ & _ & _ & -> & _) end.
  done.
Qed.

Lemma idf_value_frame b b' term :
  termFreqs b' = termFreqs b → corpusSize b' = corpusSize b →
  idf_value b' term = idf_value b term.
Proof. intros Hf Hs. unfold idf_value. by rewrite Hf, Hs. Qed.

Lemma IDF_cache_mono b term : idfCache b ⊆ idfCache (IDF b term).2.
Proof.
  rewrite IDF_cache. case_decide; [done |].
  destruct (idfCache b !! term) eqn:Hc; [done |].
  by apply insert_subseteq.
Qed.

(** ** The sign of the two logarithms *)

Lemma ln_neg (x : R) : (0 < x)%R → (x < 1)%R → (ln x < 0)%R.
Proof. intros H0 H1. rewrite <- ln_1. by apply ln_increasing. Qed.

Lemma ln_pos (x : R) : (1 < x)%R → (0 < ln x)%R.
Proof. intros H1. rewrite <- ln_1. apply ln_increasing; lra. Qed.

Lemma idf_every_document_negative (df : Z) :
  1 <= df → (ln (0.5 / (IZR df + 0.5)) < 0)%R.
Proof.
  intros Hdf. apply IZR_le in Hdf.
  assert (0 < IZR df + 0.5)%R as Hden by lra.
  apply ln_neg.
  - apply Rdiv_lt_0_compat; lra.
  - apply (Rmult_lt_reg_r (IZR df + 0.5)); [done |].
    unfold Rdiv. rewrite Rmult_assoc, Rinv_l by lra. lra.
Qed.

Lemma idf_standard_positive (size df : Z) :
  1 <= df → df < size →
  (0 < ln ((IZR size - IZR df + 0.5) / (IZR df + 0.5) + 1.0))%R.
Proof.
  intros Hdf Hlt. apply IZR_le in Hdf. apply IZR_lt in Hlt.
  apply ln_pos.
  assert (0 < (IZR size - IZR df + 0.5) / (IZR df + 0.5))%R
    by (apply Rdiv_lt_0_compat; lra).
  lra.
Qed.

(** ** The invariant *)

Lemma index_ok_table b term df :
  index_ok b → termFreqs b !! term = Some df → 1 <= df <= corpusSize b.
Proof.
  intros Hok Hdf. rewrite (ok_freqs b Hok) in Hdf.
  apply frequencyEntry_Some in Hdf as [-> Hge].
  pose proof (documentFrequency_bounds term (corpus b)).
  rewrite (ok_size b Hok). lia.
Qed.

Lemma idf_value_sign b term :
  index_ok b →
  match termFreqs b !! term with
  | None => idf_value b term = 0%R
  | Some df =>
      if decide (df = corpusSize b) then (idf_value b term < 0)%R
      else (0 < idf_value b term)%R
  end.
Proof.
  intros Hok. unfold idf_value.
  destruct (termFreqs b !! term) as [df |] eqn:Hdf; [| done].
  apply (index_ok_table b term df Hok) in Hdf.
  rewrite (decide_False (P := df = 0)) by lia. case_decide.
  - apply idf_every_document_negative. lia.
  - apply idf_standard_positive; lia.
Qed.

Lemma idf_value_zero b term :
  index_ok b → idf_value b term = 0%R → termFreqs b !! term = None.
Proof.
  intros Hok Hzero. pose proof (idf_value_sign b term Hok) as Hsign.
  destruct (termFreqs b !! term) as [df |]; [| done].
  case_decide; lra.
Qed.

Lemma NewBM25Base_index_ok docs tk log b :
  in_range (len docs) → NewBM25Base docs (Some tk) log = Ok b → index_ok b.
Proof.
  intros Hrange Hnew.
  destruct (NewBM25Base_inv docs tk log b Hrange Hnew)
    as (Hne & Hc & Hs & Hl & Hf & Htok & Hcache & _).
  assert (len (tk <$> docs) = len docs) as Hlen
    by (unfold len; by rewrite length_fmap).
  split.
  - by rewrite Hc, Hlen.
  - rewrite Hs. destruct docs; [done | unfold len; simpl; lia].
  - by rewrite Hs.
  - by rewrite Hc.
  - by rewrite Hc.
  - intros term. by rewrite Hc.
  - intros term idf. by rewrite Hcache, lookup_empty.
Qed.

Lemma IDF_index_ok b term : index_ok b → index_ok (IDF b term).2.
Proof.
  intros [Hs Hn Hr Hl Ht Hf Hc].
  destruct (IDF_frame b term) as (Ec & Es & _ & El & Ef & _).
  split; rewrite ?Ec, ?Es, ?El, ?Ef; try done.
  intros term' idf. rewrite IDF_cache.
  rewrite (idf_value_frame b (IDF b term).2 term' Ef Es).
  case_decide; [apply Hc |].
  destruct (idfCache b !! term) eqn:Hhit; [apply Hc |].
  destruct (decide (term = term')) as [<- | Hne].
  - rewrite lookup_insert_eq. by intros [= <-].
  - rewrite lookup_insert_ne by done. apply Hc.
Qed.

Lemma reachable_index_ok b : reachable b → index_ok b.
Proof.
  induction 1 as [docs tk log b Hrange Hnew | b term _ IH].
  - by eapply NewBM25Base_index_ok.
  - by apply IDF_index_ok.
Qed.

(** ** Sample indexes are reachable *)

Lemma small_in_range (z : Z) : 0 <= z <= 1000 → in_range z.
Proof. unfold in_range, min_int, max_int. lia. Qed.

Lemma built_new docs tk log :
  (∀ e, NewBM25Base docs (Some tk) log ≠ Err e) →
  NewBM25Base docs (Some tk) log = Ok (built docs (Some tk) log).
Proof.
  intros Hok. unfold built.
  destruct (NewBM25Base docs (Some tk) log) as [b | e]; [done |].
  by destruct (Hok e).
Qed.

Lemma test_base_new : NewBM25Base test_corpus (Some Split) None = Ok test_base.
Proof. apply built_new. intros e. vm_compute. discriminate. Qed.

Lemma the_base_new : NewBM25Base the_corpus (Some Split) (Some []) = Ok the_base.
Proof. apply built_new. intros e. vm_compute. discriminate. Qed.

Lemma test_base_reachable : reachable test_base.
Proof.
  apply (reachable_new test_corpus Split None); [| exact test_base_new].
  apply small_in_range. vm_compute. split; discriminate.
Qed.

Lemma the_base_reachable : reachable the_base.
Proof.
  apply (reachable_new the_corpus Split (Some [])); [| exact the_base_new].
  apply small_in_range. vm_compute. split; discriminate.
Qed.

Example the_base_table :
  termFreqs the_base !! "the" = Some 3 ∧ termFreqs the_base !! "cat" = Some 1
  ∧ termFreqs the_base !! "cow" = None ∧ corpusSize the_base = 3
  ∧ docLengths the_base = [2; 2; 3].
Proof. vm_compute. done. Qed.

(** ** IDF on reachable indexes *)

Lemma IDF_value b term :
  index_ok b → term ≠ EmptyString →
  (IDF b term).1 = Ok (idf_value b term)
  ∧ idfCache (IDF b term).2 !! term = Some (idf_value b term).
Proof.
  intros Hok Hterm. rewrite IDF_result, IDF_cache by done.
  rewrite decide_False by done.
  destruct (idfCache b !! term) as [idf |] eqn:Hhit; simpl.
  - apply (ok_cache b Hok) in Hhit as Hidf. subst idf. done.
  - by rewrite lookup_insert_eq.
Qed.

(** C4.  On an index built by [NewBM25Base] and queried since, for a term
    that is not the empty string and whose entry [df] of the document
    frequency table equals [corpusSize], [IDF] returns
    [ln (0.5 / (df + 0.5))] without error, an expression in which
    [corpusSize] does not occur; the value is negative, and it is the entry
    of the IDF cache for the term after the call. *)
Theorem IDF_term_in_every_document b term df :
  reachable b →
  term ≠ EmptyString →
  termFreqs b !! term = Some df →
  df = corpusSize b →
  (IDF b term).1 = Ok (ln (0.5 / (IZR df + 0.5)))%R
  ∧ (ln (0.5 / (IZR df + 0.5)) < 0)%R
  ∧ idfCache (IDF b term).2 !! term = Some (ln (0.5 / (IZR df + 0.5)))%R.
Proof.
  intros Hreach Hterm Hdf Hall. apply reachable_index_ok in Hreach as Hok.
  destruct (IDF_value b term Hok Hterm) as [Hres Hcache].
  pose proof (index_ok_table b term df Hok Hdf) as Hbounds.
  assert (idf_value b term = ln (0.5 / (IZR df + 0.5))%R) as Hval.
  { unfold idf_value. rewrite Hdf.
    rewrite (decide_False (P := df = 0)) by lia. by rewrite decide_True. }
  rewrite Hres, Hcache, Hval. split_and!; try done.
  apply idf_every_document_negative. lia.
Qed.

Lemma IDF_term_in_every_document_witness :
  (IDF the_base "the").1 = Ok (ln (0.5 / (IZR 3 + 0.5)))%R
  ∧ (ln (0.5 / (IZR 3 + 0.5)) < 0)%R
  ∧ idfCache (IDF the_base "the").2 !! "the"
    = Some (ln (0.5 / (IZR 3 + 0.5)))%R.
Proof.
  apply (IDF_term_in_every_document the_base "the" 3).
  - exact the_base_reachable.
  - discriminate.
  - vm_compute. reflexivity.
  - reflexivity.
Defined.

(** C5.  On an index built by [NewBM25Base] and queried since, for a term
    that is not the empty string and whose entry [df] of the document
    frequency table satisfies [0 < df < corpusSize], [IDF] returns
    [ln ((corpusSize - df + 0.5) / (df + 0.5) + 1.0)] without error, and
    this value is strictly positive. *)
Theorem IDF_standard b term df :
  reachable b →
  term ≠ EmptyString →
  termFreqs b !! term = Some df →
  0 < df < corpusSize b →
  (IDF b term).1
  = Ok (ln ((IZR (corpusSize b) - IZR df + 0.5) / (IZR df + 0.5) + 1.0))%R
  ∧ (0 < ln ((IZR (corpusSize b) - IZR df + 0.5) / (IZR df + 0.5) + 1.0))%R.
Proof.
  intros Hreach Hterm Hdf Hrange. apply reachable_index_ok in Hreach as Hok.
  destruct (IDF_value b term Hok Hterm) as [Hres _].
  rewrite Hres. unfold idf_value. rewrite Hdf.
  rewrite (decide_False (P := df = 0)) by lia.
  rewrite (decide_False (P := df = corpusSize b)) by lia.
  split; [done |]. apply idf_standard_positive; lia.
Qed.

Lemma IDF_standard_witness :
  (IDF test_base "hello").1
  = Ok (ln ((IZR (corpusSize test_base) - IZR 1 + 0.5) / (IZR 1 + 0.5) + 1.0))%R
  ∧ (0 < ln ((IZR (corpusSize test_base) - IZR 1 + 0.5)
               / (IZR 1 + 0.5) + 1.0))%R.
Proof.
  apply (IDF_standard test_base "hello" 1).
  - exact test_base_reachable.
  - discriminate.
  - vm_compute. reflexivity.
  - vm_compute. split; reflexivity.
Defined.

(** C6.  [IDF] fails with [EmptyTerm] exactly when the term is the empty
    string, on every index; and on an index built by [NewBM25Base] and
    queried since, for a term that is not the empty string and occurs in no
    document of the corpus, [IDF] returns 0.0 without error. *)
Theorem IDF_empty_term_absent_term :
  (∀ b term, (IDF b term).1 = Err EmptyTerm ↔ term = EmptyString)
  ∧ (∀ b term,
       reachable b →
       term ≠ EmptyString →
       (∀ doc, doc ∈ corpus b → term ∉ doc) →
       (IDF b term).1 = Ok 0%R).
Proof.
  split.
  - intros b term. split.
    + intros Herr. destruct (decide (term = EmptyString)) as [| Hne]; [done |].
      by rewrite IDF_result in Herr.
    + intros ->. by rewrite IDF_empty.
  - intros b term Hreach Hterm Habsent.
    apply reachable_index_ok in Hreach as Hok.
    destruct (IDF_value b term Hok Hterm) as [-> _]. f_equal.
    unfold idf_value. rewrite (ok_freqs b Hok).
    apply frequencyEntry_None in Habsent. by rewrite Habsent.
Qed.

Lemma IDF_empty_term_absent_term_witness :
  ((IDF test_base "").1 = Err EmptyTerm ↔ "" = EmptyString)
  ∧ (IDF test_base "goodbye").1 = Ok 0%R.
Proof.
  destruct IDF_empty_term_absent_term as [Hempty Habsent]. split.
  - apply Hempty.
  - apply Habsent.
    + exact test_base_reachable.
    + discriminate.
    + intros doc Hdoc Hin. vm_compute in Hdoc.
      repeat (apply elem_of_cons in Hdoc as [-> | Hdoc];
              [ repeat (apply elem_of_cons in Hin as [Hin | Hin];
                        [discriminate |]);
                by apply not_elem_of_nil in Hin |]).
      by apply not_elem_of_nil in Hdoc.
Defined.

(** ** Failures of construction *)

Lemma first_empty (tk : string → list string) (docs : list string) :
  Exists (λ doc, tk doc = []) docs →
  ∃ (k : nat) doc,
    docs !! k = Some doc ∧ tk doc = []
    ∧ ∀ (j : nat) doc', (j < k)%nat → docs !! j = Some doc' → tk doc' ≠ [].
Proof.
  induction docs as [| doc0 docs IH]; intros Hex.
  - by apply Exists_nil in Hex.
  - destruct (decide (tk doc0 = [])) as [Hempty | Hfull].
    + exists 0%nat, doc0. split_and!; [done | done | intros; lia].
    + apply Exists_cons in Hex as [Hhere | Hlater]; [done |].
      destruct (IH Hlater) as (k & doc & Hk & Hdoc & Hbefore).
      exists (S k), doc. split_and!; [done | done |].
      intros [| j] doc' Hj Hl; simpl in Hl.
      * by injection Hl as <-.
      * apply (Hbefore j); [lia | done].
Qed.

(** C7.  [NewBM25Base] fails with [EmptyCorpus] on an empty corpus; on a
    non-empty corpus without tokenizer it fails with [NilTokenizer]; on a
    non-empty corpus with a tokenizer that returns no token for some
    document it fails with [EmptyTokenization] carrying the index of the
    first such document, which the message prints; and in every other case
    it succeeds and returns an index. *)
Theorem NewBM25Base_failures docs tokenize log :
  (docs = [] → NewBM25Base docs tokenize log = Err EmptyCorpus)
  ∧ (docs ≠ [] → tokenize = None →
     NewBM25Base docs tokenize log = Err NilTokenizer)
  ∧ (∀ tk,
       tokenize = Some tk →
       Exists (λ doc, tk doc = []) docs →
       ∃ (k : nat) doc,
         docs !! k = Some doc ∧ tk doc = []
         ∧ (∀ (j : nat) doc',
              (j < k)%nat → docs !! j = Some doc' → tk doc' ≠ [])
         ∧ NewBM25Base docs tokenize log
           = Err (EmptyTokenization (Z.of_nat k))
         ∧ Error (EmptyTokenization (Z.of_nat k))
           = "tokenizer function returned an empty slice for document at index "
               +:+ format_d (Z.of_nat k))
  ∧ (∀ tk,
       docs ≠ [] →
       tokenize = Some tk →
       Forall (λ doc, tk doc ≠ []) docs →
       ∃ b, NewBM25Base docs tokenize log = Ok b).
Proof.
  split_and!.
  - intros ->. reflexivity.
  - intros Hne ->. unfold NewBM25Base.
    rewrite decide_False by (by rewrite len_zero_nil). reflexivity.
  - intros tk -> Hex.
    destruct (first_empty tk docs Hex) as (k & doc & Hk & Hdoc & Hbefore).
    exists k, doc. split_and!; try done.
    unfold NewBM25Base. rewrite decide_False.
    + by rewrite (indexDocs_first_empty tk docs 0 _ 0 k doc).
    + rewrite len_zero_nil. intros ->. done.
  - intros tk Hne -> Hall. unfold NewBM25Base.
    rewrite decide_False by (by rewrite len_zero_nil).
    match goal with |- context [indexDocs tk 0 docs ?b0 0] =>
      destruct (indexDocs_total tk docs 0%nat b0 0 Hall) as [[b total] ->] end.
    eexists. reflexivity.
Qed.

Example New_blank_corpus :
  NewBM25Base blank_corpus (Some Fields) None = Err (EmptyTokenization 2).
Proof. reflexivity. Qed.

Lemma NewBM25Base_failures_witness :
  NewBM25Base [] (Some Split) None = Err EmptyCorpus
  ∧ NewBM25Base test_corpus None None = Err NilTokenizer
  ∧ (∃ (k : nat) doc,
       blank_corpus !! k = Some doc ∧ Fields doc = []
       ∧ NewBM25Base blank_corpus (Some Fields) None
         = Err (EmptyTokenization (Z.of_nat k)))
  ∧ ∃ b, NewBM25Base test_corpus (Some Split) None = Ok b.
Proof.
  split_and!.
  - apply (NewBM25Base_failures [] (Some Split) None). reflexivity.
  - apply (NewBM25Base_failures test_corpus None None); done.
  - destruct (NewBM25Base_failures blank_corpus (Some Fields) None)
      as (_ & _ & Hempty & _).
    destruct (Hempty Fields eq_refl)
      as (k & doc & Hk & Hdoc & _ & Hnew & _).
    + apply Exists_cons_tl, Exists_cons_tl, Exists_cons_hd. reflexivity.
    + exists k, doc. done.
  - destruct (NewBM25Base_failures test_corpus (Some Split) None)
      as (_ & _ & _ & Hok).
    apply (Hok Split); [done | done |].
    repeat constructor; discriminate.
Defined.

(** ** Statistics after construction *)

(** C8.  After [NewBM25Base] succeeds on a corpus of [n] documents (whose
    length and total number of tokens are values of [int]): the corpus is
    not empty, [CorpusSize()] is [n], [DocLengths()] holds the number of
    tokens of each document at its index, [AvgDocLen()] is the total number
    of tokens divided by [corpusSize], that is the mean of [DocLengths()],
    and the document frequency table has an entry for exactly the terms that
    occur in some document, equal to the number of documents that contain
    the term, hence between 1 and [corpusSize]. *)
Theorem NewBM25Base_statistics docs tk log b :
  in_range (len docs) →
  in_range (totalTokens (tk <$> docs)) →
  NewBM25Base docs (Some tk) log = Ok b →
  docs ≠ []
  ∧ CorpusSize b = len docs
  ∧ len (DocLengths b) = len docs
  ∧ (∀ (i : nat) doc,
       docs !! i = Some doc → DocLengths b !! i = Some (len (tk doc)))
  ∧ AvgDocLen b
    = (IZR (totalTokens (tk <$> docs)) / IZR (CorpusSize b))%R
  ∧ AvgDocLen b = (IZR (sumZ (DocLengths b)) / IZR (len (DocLengths b)))%R
  ∧ (∀ term df,
       termFreqs b !! term = Some df
       ↔ df = documentFrequency term (tk <$> docs) ∧ 1 <= df)
  ∧ (∀ term,
       termFreqs b !! term = None ↔ ∀ doc, doc ∈ docs → term ∉ tk doc)
  ∧ (∀ term df, termFreqs b !! term = Some df → df <= CorpusSize b).
Proof.
  intros Hrange Htotal Hnew.
  destruct (NewBM25Base_inv docs tk log b Hrange Hnew)
    as (Hne & Hc & Hs & Hl & Hf & Htok & Hcache & _ & Havg).
  unfold CorpusSize, AvgDocLen, DocLengths.
  assert (len (docLengths b) = len docs) as Hlen.
  { rewrite Hl. unfold len. by rewrite !length_fmap. }
  split_and!; try done.
  - intros i doc Hi. rewrite Hl, !list_lookup_fmap, Hi. reflexivity.
  - rewrite Hs. by apply Havg.
  - rewrite Hlen, Hl, <- totalTokens_sum. by apply Havg.
  - intros term df. rewrite Hf. apply frequencyEntry_Some.
  - intros term. rewrite Hf, frequencyEntry_None. split.
    + intros Habsent doc Hdoc. apply Habsent. by apply list_elem_of_fmap_2.
    + intros Habsent tokens Htokens.
      apply list_elem_of_fmap in Htokens as (doc & -> & Hdoc).
      by apply Habsent.
  - intros term df Hdf. rewrite Hf in Hdf.
    apply frequencyEntry_Some in Hdf as [-> _].
    pose proof (documentFrequency_bounds term (tk <$> docs)) as Hb.
    rewrite Hs. unfold len in *. rewrite length_fmap in Hb. lia.
Qed.

Lemma NewBM25Base_statistics_witness :
  the_corpus ≠ []
  ∧ CorpusSize the_base = len the_corpus
  ∧ len (DocLengths the_base) = len the_corpus
  ∧ (∀ (i : nat) doc,
       the_corpus !! i = Some doc →
       DocLengths the_base !! i = Some (len (Split doc)))
  ∧ AvgDocLen the_base
    = (IZR (totalTokens (Split <$> the_corpus)) / IZR (CorpusSize the_base))%R
  ∧ AvgDocLen the_base
    = (IZR (sumZ (DocLengths the_base)) / IZR (len (DocLengths the_base)))%R
  ∧ (∀ term df,
       termFreqs the_base !! term = Some df
       ↔ df = documentFrequency term (Split <$> the_corpus) ∧ 1 <= df)
  ∧ (∀ term,
       termFreqs the_base !! term = None
       ↔ ∀ doc, doc ∈ the_corpus → term ∉ Split doc)
  ∧ (∀ term df, termFreqs the_base !! term = Some df → df <= CorpusSize the_base).
Proof.
  apply (NewBM25Base_statistics the_corpus Split (Some []) the_base).
  - apply small_in_range. vm_compute. split; discriminate.
  - apply small_in_range. vm_compute. split; discriminate.
  - exact the_base_new.
Defined.

Example the_base_counts_documents :
  documentFrequency "the" (Split <$> the_corpus) = 3
  ∧ Variant.frequency "the" (Split "the the end") = 2
  ∧ termFreqs the_base !! "the" = Some 3
  ∧ avgDocLen the_base = (IZR 7 / IZR 3)%R.
Proof. vm_compute. done. Qed.

(** ** IDF as a memo *)

Lemma IDF_hit b term idf :
  term ≠ EmptyString → idfCache b !! term = Some idf →
  IDF b term = (Ok idf, b).
Proof.
  intros Hterm Hhit. unfold IDF. rewrite decide_False by done.
  by rewrite Hhit.
Qed.

Lemma IDF_stored b term idf :
  (IDF b term).1 = Ok idf → idfCache (IDF b term).2 !! term = Some idf.
Proof.
  destruct (decide (term = EmptyString)) as [-> | Hterm].
  - by rewrite IDF_empty.
  - rewrite IDF_result, IDF_cache by done. rewrite decide_False by done.
    destruct (idfCache b !! term) as [hit |] eqn:Hhit; simpl.
    + by intros [= <-].
    + intros [= <-]. by rewrite lookup_insert_eq.
Qed.

(** C9.  A call of [IDF], on any index, leaves [corpus], [corpusSize],
    [avgDocLen], [docLengths] and the document frequency table as they were;
    the IDF cache is either unchanged or gains one entry, for the term of the
    call, which had none; every entry present before the call is present
    after it with the same value; a value [IDF] returns is the entry of the
    cache for the term when the call returns; a second call with the same
    term returns the same value and changes nothing; and a term with an
    entry in the cache gets that entry as the result. *)
Theorem IDF_frame_and_memo b term :
  corpus (IDF b term).2 = corpus b
  ∧ corpusSize (IDF b term).2 = corpusSize b
  ∧ avgDocLen (IDF b term).2 = avgDocLen b
  ∧ docLengths (IDF b term).2 = docLengths b
  ∧ termFreqs (IDF b term).2 = termFreqs b
  ∧ (idfCache (IDF b term).2 = idfCache b
     ∨ (idfCache b !! term = None
        ∧ ∃ idf,
            (IDF b term).1 = Ok idf
            ∧ idfCache (IDF b term).2 = <[term := idf]> (idfCache b)))
  ∧ idfCache b ⊆ idfCache (IDF b term).2
  ∧ (∀ idf,
       (IDF b term).1 = Ok idf → idfCache (IDF b term).2 !! term = Some idf)
  ∧ (∀ idf,
       (IDF b term).1 = Ok idf →
       IDF (IDF b term).2 term = (Ok idf, (IDF b term).2))
  ∧ (∀ term' idf,
       term' ≠ EmptyString → idfCache b !! term' = Some idf →
       IDF b term' = (Ok idf, b)).
Proof.
  destruct (IDF_frame b term) as (Hc & Hs & Ha & Hl & Hf & _).
  split_and!; try done.
  - rewrite IDF_cache. case_decide as Hterm; [by left |].
    destruct (idfCache b !! term) eqn:Hhit; [by left |].
    right. split; [done |]. exists (idf_value b term).
    by rewrite IDF_result, Hhit.
  - apply IDF_cache_mono.
  - apply IDF_stored.
  - intros idf Hres.
    destruct (decide (term = EmptyString)) as [-> | Hterm].
    + by rewrite IDF_empty in Hres.
    + apply IDF_hit; [done |]. by apply IDF_stored.
  - intros term' idf. apply IDF_hit.
Qed.

(** ** The frequency table has no zero entry *)

(** C10.  On an index built by [NewBM25Base] and queried since, every entry
    of the document frequency table is at least 1 and at most [corpusSize];
    so no term has the entry 0 (the branch of [IDF] guarded by
    [termFreq == 0] is never taken), and when [IDF] returns 0.0 for a term
    that is not the empty string the term has no entry in the table. *)
Theorem termFreqs_positive b :
  reachable b →
  (∀ term df, termFreqs b !! term = Some df → 1 <= df <= corpusSize b)
  ∧ (∀ term, termFreqs b !! term ≠ Some 0)
  ∧ (∀ term,
       term ≠ EmptyString → (IDF b term).1 = Ok 0%R →
       termFreqs b !! term = None).
Proof.
  intros Hreach. apply reachable_index_ok in Hreach as Hok. split_and!.
  - intros term df. by apply index_ok_table.
  - intros term Hzero. apply (index_ok_table b term 0 Hok) in Hzero. lia.
  - intros term Hterm Hres.
    destruct (IDF_value b term Hok Hterm) as [Hval _].
    rewrite Hval in Hres. injection Hres as Hzero.
    by apply idf_value_zero.
Qed.

Lemma termFreqs_positive_witness :
  (∀ term df,
     termFreqs the_base !! term = Some df → 1 <= df <= corpusSize the_base)
  ∧ (∀ term, termFreqs the_base !! term ≠ Some 0)
  ∧ (∀ term,
       term ≠ EmptyString → (IDF the_base term).1 = Ok 0%R →
       termFreqs the_base !! term = None).
Proof. apply (termFreqs_positive the_base). exact the_base_reachable. Defined.

Example the_base_absent_term :
  (IDF the_base "cow").1 = Ok 0%R ∧ termFreqs the_base !! "cow" = None.
Proof. vm_compute. done. Qed.

(** ** The shared scoring contract *)

Section Contract.

Variable contribution : Bm25Base → string → list string → R.

Lemma constructed_inv s :
  Variant.constructed s →
  index_ok (Variant.base s)
  ∧ ∃ tk, corpus (Variant.base s) = tk <$> Variant.documents s.
Proof.
  induction 1 as [docs tk log s Hrange Hnew | s term _ [IHok [tk IHc]]].
  - unfold Variant.NewScorer in Hnew.
    destruct (NewBM25Base docs (Some tk) log) as [b | e] eqn:Hb;
      [| discriminate].
    injection Hnew as <-. simpl. split.
    + by eapply NewBM25Base_index_ok.
    + exists tk. by apply (NewBM25Base_inv docs tk log b).
  - simpl. split.
    + by apply IDF_index_ok.
    + exists tk. destruct (IDF_frame (Variant.base s) term) as (-> & _).
      done.
Qed.

Lemma fold_left_sum (f : string → R) (query : list string) (start : R) :
  fold_left (λ score term, (score + f term)%R) query start
  = (start + sumR (f <$> query))%R.
Proof.
  revert start. induction query as [| term query IH]; intros start.
  - unfold sumR. simpl. lra.
  - cbn [fold_left]. rewrite IH, fmap_cons. unfold sumR. cbn [foldr]. lra.
Qed.

Lemma docScore_sum s query doc :
  Variant.docScore contribution s query doc
  = sumR ((λ term, Variant.termScore contribution s term doc) <$> query).
Proof. unfold Variant.docScore. rewrite fold_left_sum. lra. Qed.

(** C1.  For a scorer constructed and queried since, and any contribution
    formula: [GetScores] fails with [EmptyQuery] on a query without
    tokens; on any other query it returns, without error, a list of
    [CorpusSize()] scores whose entry at each document ID is the sum, over
    the query terms, of the term's contribution to that document, where a
    term that does not occur in the document contributes 0 and a term that
    occurs contributes the value of the formula. *)
Theorem GetScores_contract s query :
  Variant.constructed s →
  (len query = 0 →
   Variant.GetScores contribution s query = Err Variant.EmptyQuery)
  ∧ (len query ≠ 0 →
     ∃ scores,
       Variant.GetScores contribution s query = Ok scores
       ∧ len scores = CorpusSize (Variant.base s)
       ∧ (∀ (i : nat) doc,
            corpus (Variant.base s) !! i = Some doc →
            scores !! i
            = Some (sumR ((λ term, Variant.termScore contribution s term doc) <$> query)))
       ∧ (∀ term doc, term ∉ doc → Variant.termScore contribution s term doc = 0%R)
       ∧ (∀ term doc,
            term ∈ doc →
            Variant.termScore contribution s term doc = contribution (Variant.base s) term doc)).
Proof.
  intros Hs. destruct (constructed_inv s Hs) as [Hok _].
  unfold Variant.GetScores. split.
  - intros Hq. by rewrite decide_True.
  - intros Hq. rewrite decide_False by done. eexists. split_and!.
    + reflexivity.
    + unfold CorpusSize. rewrite (ok_size _ Hok). unfold len.
      by rewrite length_fmap.
    + intros i doc Hi. rewrite list_lookup_fmap, Hi. simpl.
      by rewrite docScore_sum.
    + intros term doc Hout. unfold Variant.termScore.
      by rewrite decide_False.
    + intros term doc Hin. unfold Variant.termScore.
      by rewrite decide_True.
Qed.

(** ** Batch scores *)

Lemma batchScores_invalid s query docIDs :
  Exists (λ id, id < 0 ∨ corpusSize (Variant.base s) <= id) docIDs →
  ∃ id,
    id ∈ docIDs ∧ (id < 0 ∨ corpusSize (Variant.base s) <= id)
    ∧ Variant.batchScores contribution s query docIDs
      = Err (Variant.InvalidDocumentID id).
Proof.
  induction docIDs as [| id0 rest IH]; intros Hex.
  - by apply Exists_nil in Hex.
  - cbn [Variant.batchScores].
    destruct (decide (id0 < 0 ∨ corpusSize (Variant.base s) <= id0))
      as [Hbad | Hgood].
    + exists id0. split_and!; [left | done | done].
    + apply Exists_cons in Hex as [Hhere | Hlater]; [done |].
      destruct (IH Hlater) as (id & Hin & Hbad & ->).
      exists id. split_and!; [by right | done | done].
Qed.

Lemma batchScores_valid s query docIDs :
  corpusSize (Variant.base s) = len (corpus (Variant.base s)) →
  Forall (λ id, 0 <= id < corpusSize (Variant.base s)) docIDs →
  ∃ scores,
    Variant.batchScores contribution s query docIDs = Ok scores
    ∧ Forall2
        (λ id score,
           (Variant.docScore contribution s query <$> corpus (Variant.base s)) !! Z.to_nat id
           = Some score)
        docIDs scores.
Proof.
  intros Hsize. induction 1 as [| id rest Hid _ (scores & Hrun & Hall)].
  - exists []. split; [done | constructor].
  - cbn [Variant.batchScores]. rewrite decide_False by lia. rewrite Hrun.
    eexists. split; [reflexivity |]. constructor; [| done].
    rewrite list_lookup_fmap.
    destruct (corpus (Variant.base s) !! Z.to_nat id) as [doc |] eqn:Hdoc;
      [done |].
    apply lookup_ge_None in Hdoc. unfold len in Hsize. lia.
Qed.

(** C3.  For a scorer constructed and queried since, and any contribution
    formula: [GetBatchScores] fails with [EmptyQuery] on a query without
    tokens; with [EmptyDocumentIDs] when the query has tokens and [docIDs]
    is empty; with [InvalidDocumentID] carrying one of the supplied IDs
    that is negative or not below [corpusSize] when the query has tokens
    and there is such an ID; and otherwise it returns, without error, one
    score per supplied ID, in the order of [docIDs], each the entry of the
    [GetScores] result at that ID. *)
Theorem GetBatchScores_contract s query docIDs :
  Variant.constructed s →
  (len query = 0 →
   Variant.GetBatchScores contribution s query docIDs
   = Err Variant.EmptyQuery)
  ∧ (len query ≠ 0 → len docIDs = 0 →
     Variant.GetBatchScores contribution s query docIDs
     = Err Variant.EmptyDocumentIDs)
  ∧ (len query ≠ 0 →
     Exists (λ id, id < 0 ∨ CorpusSize (Variant.base s) <= id) docIDs →
     ∃ id,
       id ∈ docIDs ∧ (id < 0 ∨ CorpusSize (Variant.base s) <= id)
       ∧ Variant.GetBatchScores contribution s query docIDs
         = Err (Variant.InvalidDocumentID id))
  ∧ (len query ≠ 0 → len docIDs ≠ 0 →
     Forall (λ id, 0 <= id < CorpusSize (Variant.base s)) docIDs →
     ∃ scores all,
       Variant.GetBatchScores contribution s query docIDs = Ok scores
       ∧ Variant.GetScores contribution s query = Ok all
       ∧ Forall2 (λ id score, all !! Z.to_nat id = Some score)
           docIDs scores).
Proof.
  intros Hs. destruct (constructed_inv s Hs) as [Hok _].
  unfold Variant.GetBatchScores, Variant.GetScores, CorpusSize. split_and!.
  - intros Hq. by rewrite decide_True.
  - intros Hq Hd. rewrite decide_False by done. by rewrite decide_True.
  - intros Hq Hex. rewrite decide_False by done.
    rewrite decide_False.
    + by apply batchScores_invalid.
    + rewrite len_zero_nil. intros ->. by apply Exists_nil in Hex.
  - intros Hq Hd Hall. rewrite !decide_False by done.
    destruct (batchScores_valid s query docIDs (ok_size _ Hok) Hall)
      as (scores & Hrun & Hscores).
    exists scores. eexists. split_and!; [done | reflexivity | done].
Qed.

End Contract.

(** ** Ranking *)

#[local] Instance ranksBefore_total scores :
  Total (Variant.ranksBefore scores).
Proof.
  intros i j. unfold Variant.ranksBefore.
  destruct (Rtotal_order (Variant.scoreOf scores i) (Variant.scoreOf scores j))
    as [Hlt | [Heq | Hgt]].
  - right. by left.
  - destruct (Nat.le_ge_cases i j).
    + left. right. done.
    + right. right. done.
  - left. by left.
Qed.

#[local] Instance ranksBefore_trans scores :
  Transitive (Variant.ranksBefore scores).
Proof.
  intros i j k. unfold Variant.ranksBefore.
  intros [Hij | [Hij Hle1]] [Hjk | [Hjk Hle2]].
  - left. lra.
  - left. lra.
  - left. lra.
  - right. split; [lra | lia].
Qed.

Lemma ranksBefore_strict scores i j :
  Variant.ranksBefore scores i j → i ≠ j → ranksStrictlyBefore scores i j.
Proof.
  unfold Variant.ranksBefore, ranksStrictlyBefore.
  intros [Hlt | [Heq Hle]] Hne; [by left |]. right. split; [done | lia].
Qed.

Lemma ranking_Permutation scores :
  Variant.ranking scores ≡ₚ seq 0 (length scores).
Proof. apply merge_sort_Permutation. Qed.

Lemma ranking_sorted scores :
  StronglySorted (Variant.ranksBefore scores) (Variant.ranking scores).
Proof. apply StronglySorted_merge_sort; apply _. Qed.

Lemma ranking_elem_of scores i :
  i ∈ Variant.ranking scores ↔ (i < length scores)%nat.
Proof. rewrite ranking_Permutation, elem_of_seq. lia. Qed.

Lemma ranking_NoDup scores : NoDup (Variant.ranking scores).
Proof. rewrite ranking_Permutation. apply NoDup_seq. Qed.

Lemma StronglySorted_strict scores ids :
  NoDup ids →
  StronglySorted (Variant.ranksBefore scores) ids →
  StronglySorted (ranksStrictlyBefore scores) ids.
Proof.
  induction ids as [| id ids IH]; intros Hnd Hsorted; [constructor |].
  apply NoDup_cons in Hnd as [Hfresh Hnd].
  apply StronglySorted_inv in Hsorted as [Hsorted Hhead].
  constructor; [by apply IH |].
  rewrite Forall_forall in Hhead. apply Forall_forall. intros j Hj.
  apply ranksBefore_strict; [by apply Hhead |].
  intros ->. done.
Qed.

(** The [n] best document IDs of a score vector. *)
Lemma top_ids scores (n : nat) :
  let ids := take n (Variant.ranking scores) in
  length ids = Nat.min n (length scores)
  ∧ NoDup ids
  ∧ (∀ i, i ∈ ids → (i < length scores)%nat)
  ∧ StronglySorted (ranksStrictlyBefore scores) ids
  ∧ (∀ i j,
       i ∈ ids → j ∉ ids → (j < length scores)%nat →
       ranksStrictlyBefore scores i j)
  ∧ ((length scores ≤ n)%nat → ∀ j, (j < length scores)%nat → j ∈ ids).
Proof.
  intros ids.
  pose proof (ranking_NoDup scores) as Hnd.
  pose proof (ranking_sorted scores) as Hsorted.
  rewrite <- (take_drop n (Variant.ranking scores)) in Hnd, Hsorted.
  fold ids in Hnd, Hsorted.
  apply NoDup_app in Hnd as (Hnd & Hdisjoint & _).
  assert (∀ i, i ∈ ids → i ∈ Variant.ranking scores) as Hsub.
  { intros i Hi. rewrite <- (take_drop n (Variant.ranking scores)).
    apply elem_of_app. by left. }
  split_and!.
  - unfold ids. rewrite length_take.
    by rewrite (Permutation_length (ranking_Permutation scores)), length_seq.
  - done.
  - intros i Hi. by apply ranking_elem_of, Hsub.
  - apply StronglySorted_strict; [done |].
    by apply StronglySorted_app_1_l in Hsorted.
  - intros i j Hi Hj Hlt. apply ranksBefore_strict.
    + apply (StronglySorted_app_1_elem_of _ _ _ _ _ Hsorted); [done |].
      apply ranking_elem_of in Hlt.
      rewrite <- (take_drop n (Variant.ranking scores)) in Hlt.
      apply elem_of_app in Hlt as [Hin | Hin]; done.
    + intros ->. done.
  - intros Hall j Hj. unfold ids. rewrite take_ge.
    + by apply ranking_elem_of.
    + by rewrite (Permutation_length (ranking_Permutation scores)), length_seq.
Qed.

Section TopN.

Variable contribution : Bm25Base → string → list string → R.

(** C2.  For a scorer constructed and queried since, and any contribution
    formula: [GetTopN] fails with [EmptyQuery] on a query without tokens
    and with [InvalidN] when the query has tokens and [n <= 0]; otherwise
    it returns, without error, the raw text of [min(n, CorpusSize())]
    distinct documents, those that rank before every other document, in
    strictly descending ranking order: of two returned documents the
    earlier has the higher score, or the same score and the smaller
    document ID.  When [n] is at least the corpus size every document is
    returned. *)
Theorem GetTopN_contract s query n :
  Variant.constructed s →
  (len query = 0 →
   Variant.GetTopN contribution s query n = Err Variant.EmptyQuery)
  ∧ (len query ≠ 0 → n <= 0 →
     Variant.GetTopN contribution s query n = Err Variant.InvalidN)
  ∧ (len query ≠ 0 → 0 < n →
     ∃ scores ids texts,
       Variant.GetScores contribution s query = Ok scores
       ∧ Variant.GetTopN contribution s query n = Ok texts
       ∧ Forall2 (λ id text, Variant.documents s !! id = Some text)
           ids texts
       ∧ len texts = Z.min n (CorpusSize (Variant.base s))
       ∧ NoDup ids
       ∧ (∀ id, id ∈ ids → Z.of_nat id < CorpusSize (Variant.base s))
       ∧ StronglySorted (ranksStrictlyBefore scores) ids
       ∧ (∀ i j,
            i ∈ ids → j ∉ ids →
            Z.of_nat j < CorpusSize (Variant.base s) →
            ranksStrictlyBefore scores i j)
       ∧ (CorpusSize (Variant.base s) <= n →
          ∀ j, Z.of_nat j < CorpusSize (Variant.base s) → j ∈ ids)).
Proof.
  intros Hs. destruct (constructed_inv s Hs) as [Hok [tk Hdocs]].
  unfold Variant.GetTopN, Variant.GetScores, CorpusSize. split_and!.
  - intros Hq. by rewrite decide_True.
  - intros Hq Hn. rewrite decide_False by done. by rewrite decide_True.
  - intros Hq Hn. rewrite !decide_False by (done || lia).
    set (scores :=
           Variant.docScore contribution s query
             <$> corpus (Variant.base s)).
    assert (corpusSize (Variant.base s) = Z.of_nat (length scores)) as Hsize.
    { rewrite (ok_size _ Hok). unfold scores, len.
      by rewrite length_fmap. }
    assert (length (Variant.documents s) = length scores) as Hraw.
    { unfold scores. by rewrite length_fmap, Hdocs, length_fmap. }
    destruct (top_ids scores (Z.to_nat n))
      as (Hlen & Hnd & Hbound & Hsorted & Hbest & Hall).
    exists scores, (take (Z.to_nat n) (Variant.ranking scores)).
    eexists. split_and!; try done.
    + apply Forall2_fmap_r, Forall_Forall2_diag, Forall_forall.
      intros id Hid. simpl. apply Hbound in Hid.
      destruct (Variant.documents s !! id) as [text |] eqn:Htext; [done |].
      apply lookup_ge_None in Htext. lia.
    + unfold len. rewrite length_fmap, Hlen, Hsize. lia.
    + intros id Hid. apply Hbound in Hid. lia.
    + intros i j Hi Hj Hlt. apply Hbest; [done | done | lia].
    + intros Hge j Hj. apply Hall; lia.
Qed.

End TopN.

(** ** The contract on the corpus of the test suite *)

Lemma test_scorer_constructed : Variant.constructed test_scorer.
Proof.
  apply (Variant.constructed_new test_corpus Split None).
  - apply small_in_range. vm_compute. split; discriminate.
  - unfold Variant.NewScorer. by rewrite test_base_new.
Qed.

Lemma GetScores_contract_witness :
  Variant.GetScores (Variant.bm25l 1.2 0.75) test_scorer []
  = Err Variant.EmptyQuery
  ∧ ∃ scores,
      Variant.GetScores (Variant.bm25l 1.2 0.75) test_scorer ["hello"]
      = Ok scores
      ∧ len scores = CorpusSize (Variant.base test_scorer)
      ∧ (∀ (i : nat) doc,
           corpus (Variant.base test_scorer) !! i = Some doc →
           scores !! i
           = Some
               (sumR
                  ((λ term,
                      Variant.termScore (Variant.bm25l 1.2 0.75) test_scorer
                        term doc) <$> ["hello"])))
      ∧ (∀ term doc,
           term ∉ doc →
           Variant.termScore (Variant.bm25l 1.2 0.75) test_scorer term doc
           = 0%R)
      ∧ (∀ term doc,
           term ∈ doc →
           Variant.termScore (Variant.bm25l 1.2 0.75) test_scorer term doc
           = Variant.bm25l 1.2 0.75 (Variant.base test_scorer) term doc).
Proof.
  split.
  - apply (GetScores_contract (Variant.bm25l 1.2 0.75) test_scorer []);
      [exact test_scorer_constructed | reflexivity].
  - apply (GetScores_contract (Variant.bm25l 1.2 0.75) test_scorer ["hello"]);
      [exact test_scorer_constructed | discriminate].
Defined.

Lemma GetBatchScores_contract_witness :
  Variant.GetBatchScores (Variant.bm25l 1.2 0.75) test_scorer [] [0; 1]
  = Err Variant.EmptyQuery
  ∧ Variant.GetBatchScores (Variant.bm25l 1.2 0.75) test_scorer ["hello"] []
    = Err Variant.EmptyDocumentIDs
  ∧ (∃ id,
       id ∈ [-1; 2]
       ∧ (id < 0 ∨ CorpusSize (Variant.base test_scorer) <= id)
       ∧ Variant.GetBatchScores (Variant.bm25l 1.2 0.75) test_scorer
           ["hello"] [-1; 2]
         = Err (Variant.InvalidDocumentID id))
  ∧ ∃ scores all,
      Variant.GetBatchScores (Variant.bm25l 1.2 0.75) test_scorer
        ["hello"] [1; 0]
      = Ok scores
      ∧ Variant.GetScores (Variant.bm25l 1.2 0.75) test_scorer ["hello"]
        = Ok all
      ∧ Forall2 (λ id score, all !! Z.to_nat id = Some score) [1; 0] scores.
Proof.
  split_and!.
  - apply (GetBatchScores_contract (Variant.bm25l 1.2 0.75) test_scorer
             [] [0; 1]); [exact test_scorer_constructed | reflexivity].
  - apply (GetBatchScores_contract (Variant.bm25l 1.2 0.75) test_scorer
             ["hello"] []);
      [exact test_scorer_constructed | discriminate | reflexivity].
  - apply (GetBatchScores_contract (Variant.bm25l 1.2 0.75) test_scorer
             ["hello"] [-1; 2]);
      [exact test_scorer_constructed | discriminate |].
    apply Exists_cons_hd. left. reflexivity.
  - apply (GetBatchScores_contract (Variant.bm25l 1.2 0.75) test_scorer
             ["hello"] [1; 0]);
      [exact test_scorer_constructed | discriminate | discriminate |].
    repeat constructor; vm_compute; discriminate.
Defined.

Lemma GetTopN_contract_witness :
  Variant.GetTopN (Variant.bm25l 1.2 0.75) test_scorer [] 2
  = Err Variant.EmptyQuery
  ∧ Variant.GetTopN (Variant.bm25l 1.2 0.75) test_scorer ["hello"] 0
    = Err Variant.InvalidN
  ∧ ∃ scores ids texts,
      Variant.GetScores (Variant.bm25l 1.2 0.75) test_scorer ["hello"]
      = Ok scores
      ∧ Variant.GetTopN (Variant.bm25l 1.2 0.75) test_scorer ["hello"] 1
        = Ok texts
      ∧ Forall2 (λ id text, Variant.documents test_scorer !! id = Some text)
          ids texts
      ∧ len texts = Z.min 1 (CorpusSize (Variant.base test_scorer))
      ∧ NoDup ids
      ∧ (∀ id, id ∈ ids → Z.of_nat id < CorpusSize (Variant.base test_scorer))
      ∧ StronglySorted (ranksStrictlyBefore scores) ids
      ∧ (∀ i j,
           i ∈ ids → j ∉ ids →
           Z.of_nat j < CorpusSize (Variant.base test_scorer) →
           ranksStrictlyBefore scores i j)
      ∧ (CorpusSize (Variant.base test_scorer) <= 1 →
         ∀ j, Z.of_nat j < CorpusSize (Variant.base test_scorer) → j ∈ ids).
Proof.
  split_and!.
  - apply (GetTopN_contract (Variant.bm25l 1.2 0.75) test_scorer [] 2);
      [exact test_scorer_constructed | reflexivity].
  - apply (GetTopN_contract (Variant.bm25l 1.2 0.75) test_scorer ["hello"] 0);
      [exact test_scorer_constructed | discriminate | discriminate].
  - apply (GetTopN_contract (Variant.bm25l 1.2 0.75) test_scorer ["hello"] 1);
      [exact test_scorer_constructed | discriminate | reflexivity].
Defined.

Lemma IDF_frame_and_memo_witness :
  idfCache (IDF the_base "the").2 !! "the"
  = Some (ln (0.5 / (IZR 3 + 0.5)))%R
  ∧ IDF (IDF the_base "the").2 "the"
    = (Ok (ln (0.5 / (IZR 3 + 0.5)))%R, (IDF the_base "the").2)
  ∧ logger (IDF the_base "cat").2
    = Some
        [LogCorpus 3 (IZR 7 / IZR 3)%R;
         LogIDF "cat" (ln ((IZR 3 - IZR 1 + 0.5) / (IZR 1 + 0.5) + 1.0))%R].
Proof.
  destruct (IDF_frame_and_memo the_base "the")
    as (_ & _ & _ & _ & _ & _ & _ & Hstored & Hagain & _).
  split_and!.
  - apply Hstored. reflexivity.
  - apply Hagain. reflexivity.
  - reflexivity.
Defined.

(** The placeholders of the base fail on every query. *)
Example base_methods_not_implemented b query docIDs n :
  GetScores b query = Err NotImplemented
  ∧ GetBatchScores b query docIDs = Err NotImplemented
  ∧ GetTopN b query n = Err NotImplemented
  ∧ Error NotImplemented = "not implemented".
Proof. done. Qed.
